(** * pack.h: a shallow embedding of the pack/unpack engine

    The header [pack.h] builds a binary (de)serialiser out of three field
    codecs ([integral], [fixed_string], [varchar]) chained by the variadic
    template [follow_up] and exposed through [format].

    Conventions of the embedding.
    - A [std::string] is a [list byte].
    - The machine is the one the header assumes ([endian::native = little]):
      the object representation of an integer is little-endian two's
      complement; [unsigned] has 32 bits, [size_t] and the iterator
      difference type have 64.
    - A [std::string::const_iterator] is an offset from the start of the
      string it points into; iterator arithmetic and comparison are plain
      integer arithmetic (what pointer-backed iterators do).  Only reading
      bytes outside the string is modelled as undefined behaviour.
    - The by-reference cursor [current] is threaded explicitly: an unpack
      function returns the decoder together with the new cursor.
    - A call either returns, throws [pack::exception], has undefined
      behaviour, or is rejected by the compiler: type [outcome]. *)

From Stdlib Require Import String DecimalString.
From Stdlib Require Import ZArith List Lia Bool.
From coqutil Require Import Byte Word.LittleEndianList.
Import ListNotations.
Local Open Scope list_scope.
Local Open Scope Z_scope.

(** ** Outcomes *)

Inductive outcome (A : Type) : Type :=
| Returns (a : A)
| Throws (what : string)
| Undefined
| IllFormed.

Arguments Returns {A} a.
Arguments Throws {A} what.
Arguments Undefined {A}.
Arguments IllFormed {A}.

Definition bind {A B : Type} (m : outcome A) (k : A -> outcome B) : outcome B :=
  match m with
  | Returns a => k a
  | Throws what => Throws what
  | Undefined => Undefined
  | IllFormed => IllFormed
  end.

Notation "x <- m ;; k" := (bind m (fun x => k))
  (at level 61, m at next level, right associativity).
Notation "' p <- m ;; k" := (bind m (fun x => match x with p => k end))
  (at level 61, p pattern, m at next level, right associativity).

(** ** Integer types *)

(** [enum class endian { little, big, native = little }] *)
Inductive endian : Type := little | big.
Definition native : endian := little.

(** The template parameter [raw_type] of [integral]: an integer type, given
    by its [sizeof] (in bytes) and its signedness. *)
Record raw_type : Type := { sizeof : nat; is_signed : bool }.

Definition bits (T : raw_type) : Z := 8 * Z.of_nat (sizeof T).

(** Conversion of an integer to [T] (the implicit conversion at a call
    [pack(raw_type value, ...)], or a cast): reduction modulo [2^bits],
    read back as two's complement when [T] is signed. *)
Definition convert (T : raw_type) (z : Z) : Z :=
  let u := z mod 2 ^ bits T in
  if is_signed T && (2 ^ (bits T - 1) <=? u) then u - 2 ^ bits T else u.

Definition in_range (T : raw_type) (z : Z) : Prop :=
  if is_signed T then - 2 ^ (bits T - 1) <= z < 2 ^ (bits T - 1)
  else 0 <= z < 2 ^ bits T.

Definition uint8_t : raw_type := {| sizeof := 1; is_signed := false |}.
Definition uint16_t : raw_type := {| sizeof := 2; is_signed := false |}.
Definition int32_t : raw_type := {| sizeof := 4; is_signed := true |}.
Definition unsigned : raw_type := {| sizeof := 4; is_signed := false |}.
Definition size_t : raw_type := {| sizeof := 8; is_signed := false |}.
Definition ptrdiff_t : raw_type := {| sizeof := 8; is_signed := true |}.

(** The bytes between [&value] and [&value + 1]. *)
Definition object_bytes (T : raw_type) (value : Z) : list byte :=
  le_split (sizeof T) value.

(** The value of an object of type [T] holding the bytes [bs]. *)
Definition object_value (T : raw_type) (bs : list byte) : Z :=
  convert T (le_combine bs).

(** ** Byte-order copier *)

(** The bytes of [source] in the order the loop of [byte_copy<order>]
    reads them: [endian::big] walks from [end - 1] down to [begin],
    [endian::native] from [begin] up to [end - 1]. *)
Definition reorder (order : endian) (source : list byte) : list byte :=
  match order with
  | big => rev source
  | little => source
  end.

(** [byte_copy<order>(target, begin, end)]: [source] is the byte range
    [begin, end); the result is the array at [target] after the call.
    Both specialisations fill the target from its first byte on and leave
    the rest of it as it was. *)
Definition byte_copy (order : endian) (target source : list byte) : list byte :=
  let written := reorder order source in
  written ++ skipn (length written) target.

(** ** Strings, iterators and views *)

Definition size (s : list byte) : Z := Z.of_nat (length s).

(** The strings an iterator of [unpack] can point into: the buffer being
    unpacked, or the function-local [static const std::string null] of
    [integral<raw_type, order>::unpack]. *)
Inductive storage : Type := packed_string | null_string.

(** [struct piece { begin; end; }] *)
Record piece : Type := { origin : storage; begin : Z; end_ : Z }.

(** The bytes of [s] in the iterator range [b, e); [None] when the range
    is not inside [s]. *)
Definition range (s : list byte) (b e : Z) : option (list byte) :=
  if (0 <=? b) && (b <=? e) && (e <=? size s)
  then Some (firstn (Z.to_nat (e - b)) (skipn (Z.to_nat b) s))
  else None.

(** ** Format elements, decoders and values *)

(** The elements a [format<elements...>] is made of.  [fixed_string]'s
    second template parameter [padding] has the single value [null] and is
    not used by the code.  [varchar]'s [length_encoder] is an [integral]. *)
Inductive element : Type :=
| integral (T : raw_type) (order : endian)
| fixed_string (length : Z)
| varchar (T : raw_type) (order : endian).

(** [integral<raw_type, order>::decoder] and [stringer::decoder] *)
Inductive decoder : Type :=
| integral_decoder (T : raw_type) (order : endian) (p : piece)
| stringer_decoder (p : piece).

(** An argument of [pack], or a component of the tuple [unpack] returns. *)
Inductive value : Type :=
| int_value (z : Z)
| string_value (s : list byte).

Section Decoding.

(** The buffer the iterators of the decoders point into. *)
Variable packed : list byte.

Definition null (T : raw_type) : list byte := repeat Byte.x00 (sizeof T).

Definition null_decoder (T : raw_type) (order : endian) : decoder :=
  integral_decoder T order
    {| origin := null_string; begin := 0; end_ := size (null T) |}.

Definition contents (T : raw_type) (s : storage) : list byte :=
  match s with
  | packed_string => packed
  | null_string => null T
  end.

(** [integral::decoder::decode] (the value inside the 1-tuple) *)
Definition integral_decode (T : raw_type) (order : endian) (p : piece) : outcome Z :=
  match range (contents T (origin p)) (begin p) (end_ p) with
  | Some source =>
      if (length source <=? sizeof T)%nat
      then let temp := byte_copy order (object_bytes T 0) source in
           Returns (object_value T temp)
      else Undefined
  | None => Undefined
  end.

(** [stringer::decoder::decode]: [std::string(begin, end)] *)
Definition stringer_decode (p : piece) : outcome (list byte) :=
  match range packed (begin p) (end_ p) with
  | Some s => Returns s
  | None => Undefined
  end.

(** [decode(decoding)] *)
Definition decode (decoding : decoder) : outcome value :=
  match decoding with
  | integral_decoder T order p => z <- integral_decode T order p ;; Returns (int_value z)
  | stringer_decoder p => s <- stringer_decode p ;; Returns (string_value s)
  end.

(** [decode_all(decoders, Indices{})] *)
Fixpoint decode_all (decoders : list decoder) : outcome (list value) :=
  match decoders with
  | [] => Returns []
  | d :: rest =>
      v <- decode d ;;
      vs <- decode_all rest ;;
      Returns (v :: vs)
  end.

(** *** The [unpack] of each element *)

(** [integral<raw_type, order>::unpack(current, end)] ([noexcept]) *)
Definition integral_unpack (T : raw_type) (order : endian) (current end' : Z)
  : decoder * Z :=
  if current + Z.of_nat (sizeof T) <=? end' then
    let begin' := current in
    let current := current + Z.of_nat (sizeof T) in
    (integral_decoder T order
       {| origin := packed_string; begin := begin'; end_ := current |}, current)
  else
    (null_decoder T order, current).

(** [fixed_string<length>::unpack(current, end)] *)
Definition fixed_string_unpack (length : Z) (current end' : Z)
  : outcome (decoder * Z) :=
  if current + length <=? end' then
    let begin' := current in
    let current := current + length in
    Returns (stringer_decoder
               {| origin := packed_string; begin := begin'; end_ := current |}, current)
  else
    Throws "Not enough data left in buffer to unpack fixed_string"%string.

(** [varchar<length_encoder>::unpack(current, end)] with
    [length_encoder = integral<T, order>] *)
Definition varchar_unpack (T : raw_type) (order : endian) (current end' : Z)
  : outcome (decoder * Z) :=
  let '(length_decoder, current) := integral_unpack T order current end' in
  raw <- match length_decoder with
         | integral_decoder T' order' p => integral_decode T' order' p
         | stringer_decoder _ => IllFormed
         end ;;
  let length := convert size_t raw in
  if convert unsigned (end' - current) <=? length then
    let begin' := current in
    let current := current + convert ptrdiff_t length in
    Returns (stringer_decoder
               {| origin := packed_string; begin := begin';
                  end_ := current + convert ptrdiff_t length |}, current)
  else
    Throws "Not enough data left in unpack of varchar"%string.

(** [head_type::unpack(current, end)] *)
Definition element_unpack (head : element) (current end' : Z)
  : outcome (decoder * Z) :=
  match head with
  | integral T order => Returns (integral_unpack T order current end')
  | fixed_string length => fixed_string_unpack length current end'
  | varchar T order => varchar_unpack T order current end'
  end.

(** [follow_up<head_type, tail_types...>::unpack(current, end)]; with an
    empty tail this is the specialisation [follow_up<head_type>]. *)
Fixpoint follow_up_unpack (head : element) (tail : list element)
    (current end' : Z) {struct tail} : outcome (list decoder) :=
  match tail with
  | [] =>
      '(ret, _) <- element_unpack head current end' ;;
      Returns [ret]
  | head' :: tail' =>
      '(ret, current) <- element_unpack head current end' ;;
      rest <- follow_up_unpack head' tail' current end' ;;
      Returns (ret :: rest)
  end.

End Decoding.

(** ** Packing *)

(** [integral<raw_type, order>::chain<followers...>::pack(value, arguments...)];
    [followers] is the result of [follow_up<followers...>::pack(arguments...)].
    The local [buffer] starts uninitialised and is overwritten as a whole;
    it is given zeros to start with. *)
Definition integral_chain_pack (T : raw_type) (order : endian) (value : Z)
    (followers : outcome (list byte)) : outcome (list byte) :=
  let value := convert T value in
  let buffer := byte_copy order (repeat Byte.x00 (sizeof T)) (object_bytes T value) in
  rest <- followers ;;
  Returns (buffer ++ rest).

(** [std::to_string(length)] *)
Definition to_string (length : Z) : string :=
  NilZero.string_of_int (Z.to_int length).

(** [fixed_string<length>::chain<followers...>::pack(value, arguments...)] *)
Definition fixed_string_chain_pack (length : Z) (value : list byte)
    (followers : outcome (list byte)) : outcome (list byte) :=
  if negb (size value =? convert size_t length) then
    Throws (String.append "Packed string should be of length " (to_string length))
  else
    rest <- followers ;;
    Returns (value ++ rest).

(** [varchar<integral<T, order>>::chain<followers...>::pack(value, arguments...)];
    the length goes through [follow_up<length_encoder>::pack(value.size())],
    that is [integral<T, order>::chain<finalizer>::pack]. *)
Definition varchar_chain_pack (T : raw_type) (order : endian) (value : list byte)
    (followers : outcome (list byte)) : outcome (list byte) :=
  prefix <- integral_chain_pack T order (size value) (Returns []) ;;
  rest <- followers ;;
  Returns (prefix ++ value ++ rest).

(** [follow_up<elements...>::pack(arguments...)].  The empty list is
    [follow_up<finalizer>], which returns the empty string whatever it is
    given.  An element whose argument is missing or of the wrong kind does
    not compile. *)
Fixpoint follow_up_pack (elements : list element) (arguments : list value)
  : outcome (list byte) :=
  match elements with
  | [] => Returns []
  | head :: tail =>
      match head, arguments with
      | integral T order, int_value v :: arguments' =>
          integral_chain_pack T order v (follow_up_pack tail arguments')
      | fixed_string length, string_value v :: arguments' =>
          fixed_string_chain_pack length v (follow_up_pack tail arguments')
      | varchar T order, string_value v :: arguments' =>
          varchar_chain_pack T order v (follow_up_pack tail arguments')
      | _, _ => IllFormed
      end
  end.

(** Overload resolution of [pack] against the arguments: every element
    finds an argument of its kind. *)
Fixpoint accepts (elements : list element) (arguments : list value) : bool :=
  match elements, arguments with
  | [], _ => true
  | integral _ _ :: tail, int_value _ :: arguments' => accepts tail arguments'
  | fixed_string _ :: tail, string_value _ :: arguments' => accepts tail arguments'
  | varchar _ _ :: tail, string_value _ :: arguments' => accepts tail arguments'
  | _, _ => false
  end.

(** ** [format<elements...>] *)

(** [format<elements...>::pack(arguments...)].  [format<>] does not
    instantiate: [follow_up] needs a head. *)
Definition format_pack (elements : list element) (arguments : list value)
  : outcome (list byte) :=
  match elements with
  | [] => IllFormed
  | _ :: _ => if accepts elements arguments
              then follow_up_pack elements arguments
              else IllFormed
  end.

(** [format<elements...>::unpack(packed)] *)
Definition format_unpack (elements : list element) (packed : list byte)
  : outcome (list value) :=
  match elements with
  | [] => IllFormed
  | head :: tail =>
      let begin' := 0 in
      plan <- follow_up_unpack packed head tail begin' (size packed) ;;
      decode_all packed plan
  end.

(** ** Constants used in the statements *)

(** [template<int length>]: the type of [fixed_string]'s length. *)
Definition int : raw_type := {| sizeof := 4; is_signed := true |}.

(** [std::string::max_size()]: no [std::string] is longer. *)
Definition max_size : Z := 2 ^ 63 - 1.

(** The number a run of bytes denotes when read in the given byte order as
    an unsigned integer. *)
Definition read_unsigned (order : endian) (bs : list byte) : Z :=
  le_combine (reorder order bs).

(** The view a decoder holds. *)
Definition view (d : decoder) : piece :=
  match d with
  | integral_decoder _ _ p => p
  | stringer_decoder p => p
  end.

(** ** The wire layout of formats without [varchar] *)

(** The number of bytes of the buffer an element stands for when that does
    not depend on the data (for [varchar]: the bytes of its prefix). *)
Definition width (e : element) : Z :=
  match e with
  | integral T _ => Z.of_nat (sizeof T)
  | fixed_string length => length
  | varchar T _ => Z.of_nat (sizeof T)
  end.

(** Elements of a width fixed by the format alone; the length of a
    [fixed_string] is a non-negative [int]. *)
Definition fixed_width (e : element) : Prop :=
  match e with
  | integral _ _ => True
  | fixed_string length => 0 <= length < 2 ^ 31
  | varchar _ _ => False
  end.

Fixpoint total_width (F : list element) : Z :=
  match F with
  | [] => 0
  | e :: F' => width e + total_width F'
  end.

(** The decoder of element [e] when its bytes start at offset [c]. *)
Definition decoder_at (e : element) (c : Z) : decoder :=
  let p := {| origin := packed_string; begin := c; end_ := c + width e |} in
  match e with
  | integral T order => integral_decoder T order p
  | fixed_string _ => stringer_decoder p
  | varchar _ _ => stringer_decoder p
  end.

(** Fields follow one another without padding, in declared order. *)
Fixpoint layout (F : list element) (c : Z) : list decoder :=
  match F with
  | [] => []
  | e :: F' => decoder_at e c :: layout F' (c + width e)
  end.

(** A value that respects the constraints of its field: an integer in the
    range of the field's type, a string of the declared length. *)
Definition respects (e : element) (v : value) : Prop :=
  match e, v with
  | integral T _, int_value z => in_range T z
  | fixed_string length, string_value s => size s = length
  | varchar _ _, string_value _ => True
  | _, _ => False
  end.

(** ** Notions used to state further properties *)

(** The number a run of bytes denotes with the least significant byte
    first, and with the most significant byte first. *)
Fixpoint le_value (bs : list byte) : Z :=
  match bs with
  | [] => 0
  | b :: rest => byte.unsigned b + 256 * le_value rest
  end.

Definition be_value (bs : list byte) : Z :=
  fold_left (fun acc b => acc * 256 + byte.unsigned b) bs 0.

(** The number a run of bytes denotes in a given byte order. *)
Definition value_in_order (order : endian) (bs : list byte) : Z :=
  match order with
  | little => le_value bs
  | big => be_value bs
  end.

(** The kind of value an element takes in [pack] and gives in [unpack]. *)
Definition same_kind (e : element) (v : value) : Prop :=
  match e, v with
  | integral _ _, int_value _ => True
  | fixed_string _, string_value _ => True
  | varchar _ _, string_value _ => True
  | _, _ => False
  end.

(** The decoder type of an element. *)
Definition decoder_of (e : element) (d : decoder) : Prop :=
  match e, d with
  | integral T order, integral_decoder T' order' _ => T' = T /\ order' = order
  | fixed_string _, stringer_decoder _ => True
  | varchar _ _, stringer_decoder _ => True
  | _, _ => False
  end.

Definition is_integral (e : element) : Prop :=
  match e with
  | integral _ _ => True
  | _ => False
  end.


Definition fixed_string_underrun : string :=
  "Not enough data left in buffer to unpack fixed_string".

Definition varchar_underrun : string :=
  "Not enough data left in unpack of varchar".

(** * Properties *)

(** ** Auxiliary facts on ranges, the copier and conversions *)

Lemma size_nonneg (s : list byte) : 0 <= size s.
Proof. unfold size. lia. Qed.

Lemma size_app (s t : list byte) : size (s ++ t) = size s + size t.
Proof. unfold size. rewrite length_app. lia. Qed.

Lemma range_all (s : list byte) : range s 0 (size s) = Some s.
Proof.
  unfold range.
  pose proof (size_nonneg s) as Hs.
  replace (0 <=? 0) with true by reflexivity.
  replace (0 <=? size s) with true by (symmetry; apply Z.leb_le; exact Hs).
  rewrite Z.leb_refl. cbn [andb].
  rewrite Z.sub_0_r. unfold size. rewrite Nat2Z.id.
  cbn [Z.to_nat skipn]. now rewrite firstn_all.
Qed.

Lemma range_empty (s : list byte) (b : Z) :
  0 <= b <= size s -> range s b b = Some [].
Proof.
  intros [Hb He]. unfold range.
  replace (0 <=? b) with true by (symmetry; apply Z.leb_le; exact Hb).
  replace (b <=? size s) with true by (symmetry; apply Z.leb_le; exact He).
  rewrite Z.leb_refl, Z.sub_diag. reflexivity.
Qed.

Lemma length_reorder order source : length (reorder order source) = length source.
Proof. destruct order; cbn; [reflexivity | apply length_rev]. Qed.

Lemma reorder_involutive order source : reorder order (reorder order source) = source.
Proof. destruct order; cbn; [reflexivity | apply rev_involutive]. Qed.

(** When the source fills the target, nothing of the target is left. *)
Lemma byte_copy_full order target source :
  length source = length target ->
  byte_copy order target source = reorder order source.
Proof.
  intros Hlen. unfold byte_copy. cbv zeta.
  rewrite length_reorder, Hlen, skipn_all. apply app_nil_r.
Qed.

Lemma reorder_zeros order n :
  reorder order (repeat Byte.x00 n) = repeat Byte.x00 n.
Proof.
  destruct order; cbn; [reflexivity |].
  induction n as [| n IH]; [reflexivity |].
  cbn [repeat rev]. rewrite IH. symmetry. apply repeat_cons.
Qed.

Lemma bits_pos T : (0 < sizeof T)%nat -> 8 <= bits T.
Proof. unfold bits. lia. Qed.

Lemma convert_0 T : (0 < sizeof T)%nat -> convert T 0 = 0.
Proof.
  intros H. apply bits_pos in H. unfold convert.
  rewrite Z.mod_0_l by (apply Z.pow_nonzero; lia).
  assert (0 < 2 ^ (bits T - 1)) by (apply Z.pow_pos_nonneg; lia).
  replace (2 ^ (bits T - 1) <=? 0) with false by (symmetry; apply Z.leb_gt; lia).
  now rewrite andb_false_r.
Qed.

(** Decoding the shared zero-filled string yields zero. *)
Lemma null_decode packed T order :
  (0 < sizeof T)%nat ->
  integral_decode packed T order
    {| origin := null_string; begin := 0; end_ := size (null T) |} = Returns 0.
Proof.
  intros HT. unfold integral_decode. cbn [origin begin end_ contents].
  rewrite range_all.
  assert (Hlen : length (null T) = sizeof T) by apply repeat_length.
  rewrite Hlen, Nat.leb_refl.
  rewrite byte_copy_full
    by (unfold object_bytes; now rewrite length_le_split).
  unfold null. rewrite reorder_zeros.
  unfold object_value. rewrite le_combine_0. f_equal. now apply convert_0.
Qed.

Lemma integral_unpack_underrun T order current end' :
  end' < current + Z.of_nat (sizeof T) ->
  integral_unpack T order current end' = (null_decoder T order, current).
Proof.
  intros H. unfold integral_unpack.
  now replace (current + Z.of_nat (sizeof T) <=? end') with false
    by (symmetry; apply Z.leb_gt; exact H).
Qed.

Lemma convert_size_t_int (L : Z) :
  in_range int L ->
  convert size_t L = if L <? 0 then L + 2 ^ 64 else L.
Proof.
  unfold in_range, convert. cbn [is_signed int size_t andb].
  change (bits int - 1) with 31. change (bits size_t) with 64.
  change (2 ^ 31) with 2147483648. change (2 ^ 64) with 18446744073709551616.
  intros HL. destruct (Z.ltb_spec L 0).
  - symmetry. apply Z.mod_unique with (q := -1); lia.
  - apply Z.mod_small. lia.
Qed.

(** ** The integral codec *)

(** C5: packing the 16-bit value 0x0102 as an integral field yields the
    bytes 02 01 in little-endian order and 01 02 in big-endian order,
    for a signed as for an unsigned 16-bit type, alone in a format as well
    as in front of the encoding of further fields. *)
Theorem endianness_0x0102 (s : bool) (rest : list byte) :
  let T := {| sizeof := 2; is_signed := s |} in
  format_pack [integral T little] [int_value 0x0102] = Returns [Byte.x02; Byte.x01]
  /\ format_pack [integral T big] [int_value 0x0102] = Returns [Byte.x01; Byte.x02]
  /\ integral_chain_pack T little 0x0102 (Returns rest)
     = Returns ([Byte.x02; Byte.x01] ++ rest)
  /\ integral_chain_pack T big 0x0102 (Returns rest)
     = Returns ([Byte.x01; Byte.x02] ++ rest).
Proof. destruct s; repeat split; reflexivity. Qed.

(** C4: unpacking the empty buffer against a format of one 4-byte integral
    field (any byte order, signed or not) returns the value 0, whereas
    against a format of one [fixed_string<4>] it throws the exception of
    [fixed_string::unpack]. *)
Theorem underrun_asymmetry (s : bool) (order : endian) :
  format_unpack [integral {| sizeof := 4; is_signed := s |} order] []
  = Returns [int_value 0]
  /\ format_unpack [fixed_string 4] []
     = Throws "Not enough data left in buffer to unpack fixed_string".
Proof. destruct s, order; split; reflexivity. Qed.

(** C8: when fewer than [sizeof(raw_type)] bytes remain between the cursor
    and the end of the buffer, [integral::unpack] returns the decoder over
    the shared zero-filled string, which decodes to 0, and leaves the
    cursor where it was; the next element of the format is then unpacked
    from that same position. *)
Theorem integral_underrun_keeps_cursor
    (packed : list byte) (T : raw_type) (order : endian) (current end' : Z) :
  current <= end' ->
  end' - current < Z.of_nat (sizeof T) ->
  integral_unpack T order current end' = (null_decoder T order, current)
  /\ origin (view (null_decoder T order)) = null_string
  /\ contents packed T null_string = repeat Byte.x00 (sizeof T)
  /\ decode packed (null_decoder T order) = Returns (int_value 0)
  /\ forall head tail,
       follow_up_unpack packed (integral T order) (head :: tail) current end'
       = (rest <- follow_up_unpack packed head tail current end' ;;
          Returns (null_decoder T order :: rest)).
Proof.
  intros Hle Hlt.
  assert (Hunder : integral_unpack T order current end' = (null_decoder T order, current))
    by (apply integral_unpack_underrun; lia).
  repeat split.
  - exact Hunder.
  - unfold null_decoder. cbn [decode]. rewrite null_decode by lia. reflexivity.
  - intros head tail. cbn [follow_up_unpack element_unpack bind].
    rewrite Hunder. reflexivity.
Qed.

Lemma integral_underrun_keeps_cursor_witness :
  let packed := [Byte.x01; Byte.x02; Byte.x03] in
  integral_unpack unsigned big 1 3 = (null_decoder unsigned big, 1)
  /\ follow_up_unpack packed (integral unsigned big) [fixed_string 2] 1 3
     = (rest <- follow_up_unpack packed (fixed_string 2) [] 1 3 ;;
        Returns (null_decoder unsigned big :: rest)).
Proof.
  pose proof (integral_underrun_keeps_cursor
                [Byte.x01; Byte.x02; Byte.x03] unsigned big 1 3) as H.
  destruct H as (H1 & _ & _ & _ & H5); [lia | cbn; lia |].
  split; [exact H1 | apply H5].
Defined.

(** ** The fixed-length string codec *)

(** C6: [fixed_string<length>::chain::pack] throws the length exception
    for every string whose size differs from [length], whatever follows;
    for a string of size [length] it returns the string's bytes, with
    nothing in front, followed by the encoding of the followers.  A format
    of this single field packs the string to itself. *)
Theorem fixed_string_pack_checks_length
    (length : Z) (value : list byte) (followers : outcome (list byte)) :
  in_range int length ->
  size value <= max_size ->
  (size value <> length ->
     fixed_string_chain_pack length value followers
     = Throws (String.append "Packed string should be of length " (to_string length))
     /\ format_pack [fixed_string length] [string_value value]
        = Throws (String.append "Packed string should be of length " (to_string length)))
  /\ (size value = length ->
        fixed_string_chain_pack length value followers
        = (rest <- followers ;; Returns (value ++ rest))
        /\ format_pack [fixed_string length] [string_value value] = Returns value).
Proof.
  intros Hint Hmax.
  pose proof (convert_size_t_int length Hint) as Hconv.
  pose proof (size_nonneg value) as Hsize.
  unfold max_size in Hmax. change (2 ^ 63) with 9223372036854775808 in Hmax.
  change (2 ^ 64) with 18446744073709551616 in Hconv.
  unfold in_range in Hint. cbn [is_signed int] in Hint.
  change (bits int - 1) with 31 in Hint. change (2 ^ 31) with 2147483648 in Hint.
  cbn [format_pack accepts follow_up_pack].
  unfold fixed_string_chain_pack.
  split; intros Hlen.
  - assert (Hneq : (size value =? convert size_t length) = false).
    { apply Z.eqb_neq. rewrite Hconv. destruct (Z.ltb_spec length 0); lia. }
    rewrite Hneq. cbn [negb]. split; reflexivity.
  - assert (Heq : (size value =? convert size_t length) = true).
    { apply Z.eqb_eq. rewrite Hconv. destruct (Z.ltb_spec length 0); lia. }
    rewrite Heq. cbn [negb bind]. split; [reflexivity |].
    now rewrite app_nil_r.
Qed.

Lemma fixed_string_pack_checks_length_witness :
  format_pack [fixed_string 5] [string_value (list_byte_of_string "abc")]
  = Throws "Packed string should be of length 5"
  /\ format_pack [fixed_string 3] [string_value (list_byte_of_string "abc")]
     = Returns [Byte.x61; Byte.x62; Byte.x63].
Proof.
  split.
  - refine (proj2 (proj1 (fixed_string_pack_checks_length
                            5 (list_byte_of_string "abc") (Returns []) _ _) _)).
    + cbn. lia.
    + vm_compute. discriminate.
    + vm_compute. discriminate.
  - refine (proj2 (proj2 (fixed_string_pack_checks_length
                            3 (list_byte_of_string "abc") (Returns []) _ _) _)).
    + cbn. lia.
    + vm_compute. discriminate.
    + reflexivity.
Defined.

(** ** Formats of several fields *)

(** C7: for [format<integral<int32_t, little>, fixed_string<3>>], packing
    (1, "abc") gives the bytes 01 00 00 00 61 62 63, and unpacking these
    bytes gives back 1 and then "abc". *)
Theorem multi_field_ordering :
  let F := [integral int32_t little; fixed_string 3] in
  let packed := [Byte.x01; Byte.x00; Byte.x00; Byte.x00; Byte.x61; Byte.x62; Byte.x63] in
  format_pack F [int_value 0x00000001; string_value (list_byte_of_string "abc")]
  = Returns packed
  /\ format_unpack F packed
     = Returns [int_value 1; string_value (list_byte_of_string "abc")].
Proof. split; reflexivity. Qed.

(** ** The length-prefixed string codec *)

Lemma convert_mod T z : convert T z mod 2 ^ bits T = z mod 2 ^ bits T.
Proof.
  unfold convert.
  destruct (is_signed T && (2 ^ (bits T - 1) <=? z mod 2 ^ bits T)).
  - replace (z mod 2 ^ bits T - 2 ^ bits T)
      with (z mod 2 ^ bits T + (-1) * 2 ^ bits T) by ring.
    rewrite Z_mod_plus_full. apply Zmod_mod.
  - apply Zmod_mod.
Qed.

(** What [integral::chain<finalizer>::pack] returns: the object bytes of
    the converted value, in the byte order of the field. *)
Lemma integral_chain_pack_returns T order value rest :
  integral_chain_pack T order value (Returns rest)
  = Returns (reorder order (object_bytes T (convert T value)) ++ rest).
Proof.
  unfold integral_chain_pack. cbn [bind].
  rewrite byte_copy_full; [reflexivity |].
  unfold object_bytes. now rewrite length_le_split, repeat_length.
Qed.

Lemma varchar_unpack_no_bytes packed T order (e : Z) :
  (0 < sizeof T)%nat ->
  varchar_unpack packed T order e e
  = Returns (stringer_decoder {| origin := packed_string; begin := e; end_ := e |}, e).
Proof.
  intros HT. unfold varchar_unpack.
  rewrite integral_unpack_underrun by lia.
  unfold null_decoder. rewrite null_decode by exact HT. cbn [bind].
  rewrite Z.sub_diag.
  change (convert size_t 0) with 0. change (convert unsigned 0) with 0.
  change (convert ptrdiff_t 0) with 0. cbn [Z.leb Z.compare].
  now rewrite !Z.add_0_r.
Qed.

(** C9: a [varchar] field unpacked where no byte remains does not throw.
    The length prefix is read from the zero-filled string and is 0, the
    check passes, and the field decodes to the empty string; so unpacking
    the empty buffer against a format of one [varchar] returns "". *)
Theorem varchar_unpack_at_end (packed : list byte) (T : raw_type) (order : endian) :
  (0 < sizeof T)%nat ->
  let e := size packed in
  let p := {| origin := packed_string; begin := e; end_ := e |} in
  varchar_unpack packed T order e e = Returns (stringer_decoder p, e)
  /\ decode packed (stringer_decoder p) = Returns (string_value [])
  /\ format_unpack [varchar T order] [] = Returns [string_value []].
Proof.
  intros HT e p. split; [| split].
  - now apply varchar_unpack_no_bytes.
  - cbn [decode]. unfold stringer_decode. subst p. cbn [begin end_].
    rewrite range_empty by (pose proof (size_nonneg packed); subst e; lia).
    reflexivity.
  - unfold format_unpack. cbn [follow_up_unpack element_unpack].
    change (size []) with 0.
    rewrite varchar_unpack_no_bytes by exact HT. reflexivity.
Qed.

Lemma varchar_unpack_at_end_witness :
  let packed := list_byte_of_string "abc" in
  varchar_unpack packed unsigned little 3 3
  = Returns (stringer_decoder {| origin := packed_string; begin := 3; end_ := 3 |}, 3)
  /\ format_unpack [fixed_string 3; varchar unsigned little] packed
     = Returns [string_value packed; string_value []].
Proof.
  split.
  - refine (proj1 (varchar_unpack_at_end (list_byte_of_string "abc") unsigned little _)).
    cbn. lia.
  - reflexivity.
Defined.

(** C10: the length prefix [varchar::chain::pack] puts in front of a
    string has the size of the length encoder's type and, read in the
    encoder's byte order, is the string's size modulo [2^w], [w] being the
    bit width of that type; it is followed by the string and the followers. *)
Theorem varchar_pack_length_prefix
    (T : raw_type) (order : endian) (value rest : list byte) :
  exists prefix : list byte,
    varchar_chain_pack T order value (Returns rest) = Returns (prefix ++ value ++ rest)
    /\ format_pack [varchar T order] [string_value value] = Returns (prefix ++ value)
    /\ length prefix = sizeof T
    /\ read_unsigned order prefix = size value mod 2 ^ bits T.
Proof.
  exists (reorder order (object_bytes T (convert T (size value)))).
  assert (Hchain : forall rest',
             varchar_chain_pack T order value (Returns rest')
             = Returns (reorder order (object_bytes T (convert T (size value)))
                          ++ value ++ rest')).
  { intros rest'. unfold varchar_chain_pack.
    rewrite integral_chain_pack_returns. cbn [bind]. now rewrite app_nil_r. }
  split; [apply Hchain | split; [| split]].
  - cbn [format_pack accepts follow_up_pack]. rewrite Hchain. now rewrite app_nil_r.
  - rewrite length_reorder. unfold object_bytes. apply length_le_split.
  - unfold read_unsigned. rewrite reorder_involutive. unfold object_bytes.
    rewrite le_combine_split.
    replace (Z.of_nat (sizeof T) * 8) with (bits T) by (unfold bits; lia).
    apply convert_mod.
Qed.

(** A one-byte length encoder in front of a 300-byte string: the prefix is
    300 - 256 = 44. *)
Example varchar_prefix_wraps :
  format_pack [varchar uint8_t little] [string_value (repeat Byte.x61 300)]
  = Returns (Byte.x2c :: repeat Byte.x61 300).
Proof. vm_compute. reflexivity. Qed.

(** C2: [varchar::unpack] compares the wrong way round.  With a length
    prefix of 1 and two bytes left it throws although the data suffice;
    with a prefix of 2 and one byte left it does not throw, moves the
    cursor past the end of the buffer and returns a view that runs beyond
    it; when length and rest agree the view returned spans twice the
    length. *)
Theorem varchar_unpack_bounds_check_inverted :
  varchar_unpack [Byte.x01; Byte.x00; Byte.x00; Byte.x00; Byte.x61; Byte.x62]
    unsigned little 0 6
  = Throws "Not enough data left in unpack of varchar"
  /\ varchar_unpack [Byte.x02; Byte.x00; Byte.x00; Byte.x00; Byte.x61]
       unsigned little 0 5
     = Returns (stringer_decoder
                  {| origin := packed_string; begin := 4; end_ := 8 |}, 6)
  /\ varchar_unpack [Byte.x01; Byte.x00; Byte.x00; Byte.x00; Byte.x61]
       unsigned little 0 5
     = Returns (stringer_decoder
                  {| origin := packed_string; begin := 4; end_ := 6 |}, 5).
Proof. repeat split; reflexivity. Qed.

(** C1: the round trip breaks on [varchar].  In front of a further field
    the packed bytes of ("a", 5) make [unpack] throw; as the only field of
    the format the packed bytes of "a" are unpacked into a view that
    reaches beyond the buffer. *)
Theorem roundtrip_fails_on_varchar :
  let F := [varchar unsigned little; integral uint8_t little] in
  let packed := [Byte.x01; Byte.x00; Byte.x00; Byte.x00; Byte.x61; Byte.x05] in
  format_pack F [string_value [Byte.x61]; int_value 5] = Returns packed
  /\ format_unpack F packed = Throws "Not enough data left in unpack of varchar"
  /\ format_pack [varchar unsigned little] [string_value [Byte.x61]]
     = Returns [Byte.x01; Byte.x00; Byte.x00; Byte.x00; Byte.x61]
  /\ format_unpack [varchar unsigned little]
       [Byte.x01; Byte.x00; Byte.x00; Byte.x00; Byte.x61]
     = Undefined.
Proof. repeat split; reflexivity. Qed.

(** C3: a byte after the last field is not ignored when that field is a
    [varchar]: the bytes of "a" packed by [format<varchar<>>], followed by
    one more byte, make [unpack] throw. *)
Theorem trailing_byte_after_varchar_throws :
  let F := [varchar unsigned little] in
  let packed := [Byte.x01; Byte.x00; Byte.x00; Byte.x00; Byte.x61] in
  format_pack F [string_value [Byte.x61]] = Returns packed
  /\ format_unpack F (packed ++ [Byte.x62])
     = Throws "Not enough data left in unpack of varchar".
Proof. split; reflexivity. Qed.

(** ** Formats of fixed width: layout, trailing bytes, round trip *)

Lemma range_inside (s : list byte) (b e : Z) :
  0 <= b -> b <= e -> e <= size s ->
  range s b e = Some (firstn (Z.to_nat (e - b)) (skipn (Z.to_nat b) s)).
Proof.
  intros Hb Hbe He. unfold range.
  replace (0 <=? b) with true by (symmetry; now apply Z.leb_le).
  replace (b <=? e) with true by (symmetry; now apply Z.leb_le).
  replace (e <=? size s) with true by (symmetry; now apply Z.leb_le).
  reflexivity.
Qed.

Lemma length_slice (s : list byte) (b e : Z) :
  0 <= b -> b <= e -> e <= size s ->
  length (firstn (Z.to_nat (e - b)) (skipn (Z.to_nat b) s)) = Z.to_nat (e - b).
Proof.
  intros Hb Hbe He. unfold size in He.
  rewrite length_firstn, length_skipn. lia.
Qed.

(** Bytes appended to a string do not change the ranges inside it. *)
Lemma range_app_l (s extra : list byte) (b e : Z) :
  0 <= b -> b <= e -> e <= size s ->
  range (s ++ extra) b e = range s b e.
Proof.
  intros Hb Hbe He.
  rewrite !range_inside by (rewrite ?size_app; pose proof (size_nonneg extra); lia).
  f_equal. unfold size in He.
  rewrite skipn_app, firstn_app, length_skipn.
  replace (Z.to_nat (e - b) - (length s - Z.to_nat b))%nat with 0%nat by lia.
  rewrite firstn_0. apply app_nil_r.
Qed.

Lemma range_middle (pre mid post : list byte) :
  range (pre ++ mid ++ post) (size pre) (size pre + size mid) = Some mid.
Proof.
  pose proof (size_nonneg pre). pose proof (size_nonneg mid).
  pose proof (size_nonneg post).
  rewrite range_inside by (rewrite ?size_app; lia).
  f_equal. unfold size.
  replace (Z.of_nat (length pre) + Z.of_nat (length mid) - Z.of_nat (length pre))
    with (Z.of_nat (length mid)) by lia.
  rewrite !Nat2Z.id, skipn_app, skipn_all, Nat.sub_diag, skipn_0.
  cbn [app]. rewrite firstn_app, firstn_all, Nat.sub_diag, firstn_0.
  apply app_nil_r.
Qed.

Lemma width_nonneg e : fixed_width e -> 0 <= width e.
Proof. destruct e; cbn; lia. Qed.

Lemma total_width_nonneg F : Forall fixed_width F -> 0 <= total_width F.
Proof.
  induction 1 as [| e F He _ IH]; cbn [total_width]; [lia |].
  apply width_nonneg in He. lia.
Qed.

Lemma element_unpack_fixed_width packed e (c end' : Z) :
  fixed_width e -> c + width e <= end' ->
  element_unpack packed e c end' = Returns (decoder_at e c, c + width e).
Proof.
  intros He Hfit. destruct e as [T order | L | T order]; cbn in *.
  - unfold integral_unpack.
    now replace (c + Z.of_nat (sizeof T) <=? end') with true
      by (symmetry; now apply Z.leb_le).
  - unfold fixed_string_unpack.
    now replace (c + L <=? end') with true by (symmetry; now apply Z.leb_le).
  - contradiction.
Qed.

(** With enough bytes in the buffer, the plan [follow_up::unpack] builds
    for a format of fixed width is its layout. *)
Lemma follow_up_unpack_layout packed tail :
  forall head (c end' : Z),
    Forall fixed_width (head :: tail) ->
    c + total_width (head :: tail) <= end' ->
    follow_up_unpack packed head tail c end' = Returns (layout (head :: tail) c).
Proof.
  induction tail as [| head' tail' IH]; intros head c end' HF Hfit;
    inversion HF as [| ? ? Hhead Htail]; subst.
  - cbn [total_width] in Hfit. cbn [follow_up_unpack layout].
    rewrite element_unpack_fixed_width by (assumption || lia). reflexivity.
  - pose proof (total_width_nonneg _ Htail) as Hnn.
    change (total_width (head :: head' :: tail'))
      with (width head + total_width (head' :: tail')) in Hfit.
    cbn [follow_up_unpack].
    rewrite element_unpack_fixed_width by (assumption || lia). cbn [bind].
    rewrite IH by (assumption || lia). reflexivity.
Qed.

(** A decoder of the layout that lies inside the buffer decodes to a
    value, the same whatever follows the buffer. *)
Lemma decode_fixed_width packed e (c : Z) :
  fixed_width e -> 0 <= c -> c + width e <= size packed ->
  exists v, decode packed (decoder_at e c) = Returns v
            /\ forall extra, decode (packed ++ extra) (decoder_at e c) = Returns v.
Proof.
  intros He Hc Hfit. pose proof (width_nonneg e He) as Hw.
  destruct e as [T order | L | T order]; cbn [decoder_at width] in *.
  - cbn [decode]. unfold integral_decode. cbn [origin begin end_ contents].
    assert (Hlen : (length (firstn (Z.to_nat (c + Z.of_nat (sizeof T) - c))
                              (skipn (Z.to_nat c) packed)) <=? sizeof T)%nat = true).
    { apply Nat.leb_le. rewrite length_slice by lia. lia. }
    eexists. split.
    + rewrite range_inside by lia. rewrite Hlen. reflexivity.
    + intros extra. rewrite range_app_l by lia.
      rewrite range_inside by lia. rewrite Hlen. reflexivity.
  - cbn [decode]. unfold stringer_decode. cbn [begin end_].
    eexists. split.
    + rewrite range_inside by lia. reflexivity.
    + intros extra. rewrite range_app_l by lia.
      rewrite range_inside by lia. reflexivity.
  - contradiction.
Qed.

Lemma decode_all_layout packed F :
  forall c : Z,
    Forall fixed_width F -> 0 <= c -> c + total_width F <= size packed ->
    exists V, decode_all packed (layout F c) = Returns V
              /\ forall extra, decode_all (packed ++ extra) (layout F c) = Returns V.
Proof.
  induction F as [| e F IH]; intros c HF Hc Hfit.
  - exists []. split; reflexivity.
  - inversion HF as [| ? ? He HF']; subst.
    pose proof (width_nonneg e He) as Hw.
    pose proof (total_width_nonneg F HF') as Hnn.
    cbn [total_width] in Hfit.
    destruct (decode_fixed_width packed e c He Hc) as (v & Hv & Hv'); [lia |].
    destruct (IH (c + width e) HF') as (V & HV & HV'); [lia | lia |].
    exists (v :: V). cbn [layout decode_all]. split.
    + rewrite Hv. cbn [bind]. rewrite HV. reflexivity.
    + intros extra. rewrite Hv'. cbn [bind]. rewrite HV'. reflexivity.
Qed.

(** X2: trailing bytes are ignored by formats of [integral] and
    [fixed_string] fields: a buffer holding at least the bytes of all fields unpacks to a
    tuple, and to the same tuple whatever is appended to it. *)
Lemma trailing_bytes_ignored_fixed_width (F : list element) (packed : list byte) :
  F <> [] ->
  Forall fixed_width F ->
  total_width F <= size packed ->
  exists V, format_unpack F packed = Returns V
            /\ forall extra, format_unpack F (packed ++ extra) = Returns V.
Proof.
  intros Hne HF Hfit. destruct F as [| head tail]; [contradiction |].
  destruct (decode_all_layout packed (head :: tail) 0 HF) as (V & HV & HV');
    [lia | lia |].
  exists V. unfold format_unpack. split.
  - rewrite follow_up_unpack_layout by (assumption || lia). exact HV.
  - intros extra.
    rewrite follow_up_unpack_layout
      by (assumption || (rewrite size_app; pose proof (size_nonneg extra); lia)).
    apply HV'.
Qed.

Lemma convert_in_range T z : in_range T z -> convert T z = z.
Proof.
  unfold in_range, convert. destruct (is_signed T); cbn [andb]; intros H.
  - assert (Hb : bits T = 0 \/ 1 <= bits T) by (unfold bits; lia).
    destruct Hb as [Hb | Hb].
    + rewrite Hb in H. cbn in H. lia.
    + assert (HM : 2 ^ bits T = 2 * 2 ^ (bits T - 1)).
      { replace (bits T) with (Z.succ (bits T - 1)) at 1 by lia.
        apply Z.pow_succ_r. lia. }
      assert (Hh : 0 < 2 ^ (bits T - 1)) by (apply Z.pow_pos_nonneg; lia).
      rewrite HM. set (h := 2 ^ (bits T - 1)) in *.
      destruct (Z.le_gt_cases 0 z) as [Hz | Hz].
      * rewrite Z.mod_small by lia.
        now replace (h <=? z) with false by (symmetry; apply Z.leb_gt; lia).
      * replace (z mod (2 * h)) with (z + 2 * h)
          by (apply Z.mod_unique with (q := -1); lia).
        replace (h <=? z + 2 * h) with true by (symmetry; apply Z.leb_le; lia).
        lia.
  - apply Z.mod_small. exact H.
Qed.

Lemma convert_mod_l T z : convert T (z mod 2 ^ bits T) = convert T z.
Proof. unfold convert. now rewrite Zmod_mod. Qed.

(** Decoding the bytes [integral::chain::pack] wrote gives the value back. *)
Lemma integral_decode_encoding (pre post : list byte) T order z :
  in_range T z ->
  integral_decode (pre ++ reorder order (object_bytes T z) ++ post) T order
    {| origin := packed_string; begin := size pre;
       end_ := size pre + Z.of_nat (sizeof T) |} = Returns z.
Proof.
  intros Hz. unfold integral_decode. cbn [origin begin end_ contents].
  assert (Hlen : length (reorder order (object_bytes T z)) = sizeof T).
  { rewrite length_reorder. unfold object_bytes. apply length_le_split. }
  replace (Z.of_nat (sizeof T)) with (size (reorder order (object_bytes T z)))
    by (unfold size; now rewrite Hlen).
  rewrite range_middle, Hlen, Nat.leb_refl.
  rewrite byte_copy_full
    by (rewrite Hlen; unfold object_bytes; now rewrite length_le_split).
  rewrite reorder_involutive. unfold object_value, object_bytes.
  rewrite le_combine_split.
  replace (Z.of_nat (sizeof T) * 8) with (bits T) by (unfold bits; lia).
  rewrite convert_mod_l. f_equal. now apply convert_in_range.
Qed.

Lemma stringer_decode_encoding (pre s post : list byte) :
  stringer_decode (pre ++ s ++ post)
    {| origin := packed_string; begin := size pre; end_ := size pre + size s |}
  = Returns s.
Proof. unfold stringer_decode. cbn [begin end_]. now rewrite range_middle. Qed.

(** Packing values that respect a format of fixed width returns as many
    bytes as the layout says, and the layout's decoders read the values
    back from them, wherever the bytes sit in a buffer. *)
Lemma pack_then_decode F V :
  Forall2 respects F V ->
  Forall fixed_width F ->
  exists bs,
    follow_up_pack F V = Returns bs
    /\ accepts F V = true
    /\ size bs = total_width F
    /\ forall pre post,
         decode_all (pre ++ bs ++ post) (layout F (size pre)) = Returns V.
Proof.
  induction 1 as [| e v F V Hev _ IH]; intros HF.
  - exists []. repeat split.
  - inversion HF as [| ? ? He HF']; subst.
    destruct (IH HF') as (bs' & Hpack & Hacc & Hsize & Hdec).
    destruct e as [T order | L | T order], v as [z | s];
      cbn [respects fixed_width] in Hev, He; try contradiction.
    + (* integral *)
      exists (reorder order (object_bytes T z) ++ bs').
      assert (Hlen : size (reorder order (object_bytes T z)) = Z.of_nat (sizeof T)).
      { unfold size, object_bytes. now rewrite length_reorder, length_le_split. }
      split; [| split; [| split]].
      * cbn [follow_up_pack]. rewrite Hpack, integral_chain_pack_returns.
        now rewrite convert_in_range.
      * exact Hacc.
      * rewrite size_app, Hlen, Hsize. reflexivity.
      * intros pre post. cbn [layout decode_all decoder_at decode width].
        rewrite <- (app_assoc _ bs' post).
        rewrite integral_decode_encoding by exact Hev. cbn [bind].
        rewrite <- Hlen, <- size_app.
        rewrite (app_assoc pre _ (bs' ++ post)).
        rewrite Hdec. reflexivity.
    + (* fixed_string *)
      exists (s ++ bs').
      split; [| split; [| split]].
      * cbn [follow_up_pack]. rewrite Hpack. unfold fixed_string_chain_pack.
        rewrite convert_in_range
          by (unfold in_range; cbn [is_signed size_t];
              change (2 ^ bits size_t) with 18446744073709551616;
              change (2 ^ 31) with 2147483648 in He; lia).
        rewrite Hev, Z.eqb_refl. reflexivity.
      * exact Hacc.
      * rewrite size_app, Hsize, Hev. reflexivity.
      * intros pre post. cbn [layout decode_all decoder_at decode width].
        rewrite <- (app_assoc _ bs' post). rewrite <- Hev.
        rewrite stringer_decode_encoding. cbn [bind].
        rewrite <- size_app.
        rewrite (app_assoc pre _ (bs' ++ post)).
        rewrite Hdec. reflexivity.
Qed.

(** X1: round trip for formats of [integral] and [fixed_string] fields: the
    bytes [pack] returns for values respecting the format are unpacked to
    these values, also when further bytes follow them. *)
Lemma roundtrip_fixed_width (F : list element) (V : list value) :
  F <> [] ->
  Forall fixed_width F ->
  Forall2 respects F V ->
  exists packed,
    format_pack F V = Returns packed
    /\ format_unpack F packed = Returns V
    /\ forall extra, format_unpack F (packed ++ extra) = Returns V.
Proof.
  intros Hne HF HV.
  destruct (pack_then_decode F V HV HF) as (bs & Hpack & Hacc & Hsize & Hdec).
  destruct F as [| head tail]; [contradiction |].
  exists bs. unfold format_pack, format_unpack. rewrite Hacc. split; [exact Hpack |].
  assert (Hplan : forall extra,
             follow_up_unpack (bs ++ extra) head tail 0 (size (bs ++ extra))
             = Returns (layout (head :: tail) 0)).
  { intros extra. apply follow_up_unpack_layout; [exact HF |].
    rewrite size_app. pose proof (size_nonneg extra). lia. }
  split.
  - specialize (Hplan []). rewrite app_nil_r in Hplan. rewrite Hplan. cbn [bind].
    specialize (Hdec [] []). rewrite app_nil_r in Hdec. exact Hdec.
  - intros extra. rewrite Hplan. cbn [bind]. exact (Hdec [] extra).
Qed.

(** ** What [varchar::unpack] does in general *)

(** A [varchar] field whose prefix encodes [n], found in a buffer with
    [rest] after the prefix: the exception is thrown exactly when more
    than [n] bytes remain; otherwise the cursor moves [n] bytes on and the
    view returned spans [2 * n] bytes. *)
Lemma varchar_unpack_characterised (pre rest : list byte) T order (n : Z) :
  in_range T n ->
  0 <= n < 2 ^ 63 ->
  size rest < 2 ^ 32 ->
  let prefix := reorder order (object_bytes T n) in
  let packed := pre ++ prefix ++ rest in
  let after := size pre + Z.of_nat (sizeof T) in
  varchar_unpack packed T order (size pre) (size packed)
  = if size rest <=? n
    then Returns (stringer_decoder
                    {| origin := packed_string; begin := after;
                       end_ := after + n + n |}, after + n)
    else Throws "Not enough data left in unpack of varchar".
Proof.
  intros HT Hn Hrest prefix packed after.
  pose proof (size_nonneg rest) as Hr0.
  assert (Hlen : size prefix = Z.of_nat (sizeof T)).
  { unfold prefix, size, object_bytes. now rewrite length_reorder, length_le_split. }
  assert (Hsize : size packed = after + size rest).
  { unfold packed, after. rewrite !size_app, Hlen. lia. }
  change (2 ^ 63) with 9223372036854775808 in Hn.
  change (2 ^ 32) with 4294967296 in Hrest.
  unfold varchar_unpack, integral_unpack.
  replace (size pre + Z.of_nat (sizeof T) <=? size packed) with true
    by (symmetry; apply Z.leb_le; fold after; lia).
  unfold packed, prefix at 1.
  rewrite integral_decode_encoding by exact HT. cbn [bind].
  fold prefix. fold packed. fold after.
  assert (Hsz : convert size_t n = n).
  { apply convert_in_range. unfold in_range. cbn [is_signed size_t].
    change (2 ^ bits size_t) with 18446744073709551616. lia. }
  assert (Hpd : convert ptrdiff_t n = n).
  { apply convert_in_range. unfold in_range. cbn [is_signed ptrdiff_t].
    change (2 ^ (bits ptrdiff_t - 1)) with 9223372036854775808. lia. }
  assert (Hun : convert unsigned (size packed - after) = size rest).
  { replace (size packed - after) with (size rest) by lia.
    apply convert_in_range. unfold in_range. cbn [is_signed unsigned].
    change (2 ^ bits unsigned) with 4294967296. lia. }
  rewrite Hsz, Hpd, Hun.
  reflexivity.
Qed.


Lemma roundtrip_fixed_width_witness :
  exists packed,
    format_pack [integral uint16_t big; fixed_string 3]
      [int_value 258; string_value (list_byte_of_string "abc")] = Returns packed
    /\ format_unpack [integral uint16_t big; fixed_string 3] packed
       = Returns [int_value 258; string_value (list_byte_of_string "abc")]
    /\ forall extra,
         format_unpack [integral uint16_t big; fixed_string 3] (packed ++ extra)
         = Returns [int_value 258; string_value (list_byte_of_string "abc")].
Proof.
  apply roundtrip_fixed_width.
  - discriminate.
  - repeat constructor; vm_compute; discriminate.
  - repeat constructor; vm_compute; discriminate.
Defined.

Lemma trailing_bytes_ignored_fixed_width_witness :
  exists V,
    format_unpack [fixed_string 2; integral int32_t little]
      (list_byte_of_string "abcdefg") = Returns V
    /\ forall extra,
         format_unpack [fixed_string 2; integral int32_t little]
           (list_byte_of_string "abcdefg" ++ extra) = Returns V.
Proof.
  apply trailing_bytes_ignored_fixed_width.
  - discriminate.
  - repeat constructor; vm_compute; discriminate.
  - vm_compute. discriminate.
Defined.


(** ** More on the length-prefixed string codec *)





Lemma le_split_0 (n : nat) : le_split n 0 = repeat Byte.x00 n.
Proof.
  rewrite <- (le_combine_0 n) at 1.
  apply split_le_combine'. apply repeat_length.
Qed.

(** X5: the empty string is the one value a [varchar] field carries
    through: alone in a format it is packed to the zero prefix and nothing
    else, and these bytes are unpacked to the empty string. *)
Theorem varchar_empty_string_roundtrip (T : raw_type) (order : endian) :
  (0 < sizeof T)%nat ->
  format_pack [varchar T order] [string_value []]
  = Returns (repeat Byte.x00 (sizeof T))
  /\ format_unpack [varchar T order] (repeat Byte.x00 (sizeof T))
     = Returns [string_value []].
Proof.
  intros HT.
  assert (Hprefix : reorder order (object_bytes T 0) = repeat Byte.x00 (sizeof T)).
  { unfold object_bytes. rewrite le_split_0. apply reorder_zeros. }
  split.
  - cbn [format_pack accepts follow_up_pack]. unfold varchar_chain_pack.
    rewrite integral_chain_pack_returns. change (size []) with 0.
    rewrite convert_0 by exact HT. rewrite Hprefix. cbn [bind].
    now rewrite !app_nil_r.
  - assert (Hrange : in_range T 0).
    { pose proof (bits_pos T HT) as Hb. unfold in_range.
      assert (0 < 2 ^ (bits T - 1)) by (apply Z.pow_pos_nonneg; lia).
      assert (0 < 2 ^ bits T) by (apply Z.pow_pos_nonneg; lia).
      destruct (is_signed T); lia. }
    pose proof (varchar_unpack_characterised [] [] T order 0 Hrange) as H.
    cbv zeta in H. rewrite Hprefix in H. cbn [app] in H. rewrite app_nil_r in H.
    change (size []) with 0 in H.
    unfold format_unpack. cbn [follow_up_unpack element_unpack].
    rewrite H by (vm_compute; split; (discriminate || reflexivity)).
    cbn [Z.leb Z.compare bind decode_all decode]. unfold stringer_decode.
    cbn [begin end_].
    replace (0 + Z.of_nat (sizeof T) + 0 + 0) with (0 + Z.of_nat (sizeof T)) by lia.
    rewrite range_empty by (unfold size; rewrite repeat_length; lia).
    reflexivity.
Qed.

Lemma varchar_empty_string_roundtrip_witness :
  format_pack [varchar unsigned big] [string_value []]
  = Returns [Byte.x00; Byte.x00; Byte.x00; Byte.x00]
  /\ format_unpack [varchar unsigned big] [Byte.x00; Byte.x00; Byte.x00; Byte.x00]
     = Returns [string_value []].
Proof.
  apply (varchar_empty_string_roundtrip unsigned big). cbn. lia.
Defined.

(** ** More on the integral codec *)

Lemma convert_idempotent T z : convert T (convert T z) = convert T z.
Proof. now rewrite <- (convert_mod_l T (convert T z)), convert_mod, convert_mod_l. Qed.

(** Decoding the object bytes of any integer gives its conversion to [T]. *)
Lemma integral_decode_object_bytes (pre post : list byte) T order z :
  integral_decode (pre ++ reorder order (object_bytes T z) ++ post) T order
    {| origin := packed_string; begin := size pre;
       end_ := size pre + Z.of_nat (sizeof T) |} = Returns (convert T z).
Proof.
  unfold integral_decode. cbn [origin begin end_ contents].
  assert (Hlen : length (reorder order (object_bytes T z)) = sizeof T).
  { rewrite length_reorder. unfold object_bytes. apply length_le_split. }
  replace (Z.of_nat (sizeof T)) with (size (reorder order (object_bytes T z)))
    by (unfold size; now rewrite Hlen).
  rewrite range_middle, Hlen, Nat.leb_refl.
  rewrite byte_copy_full
    by (rewrite Hlen; unfold object_bytes; now rewrite length_le_split).
  rewrite reorder_involutive. unfold object_value, object_bytes.
  rewrite le_combine_split.
  replace (Z.of_nat (sizeof T) * 8) with (bits T) by (unfold bits; lia).
  now rewrite convert_mod_l.
Qed.

(** X6: [integral] never rejects a value.  Whatever integer is passed,
    [pack] returns [sizeof(raw_type)] bytes, and [unpack] of these bytes
    returns the integer converted to [raw_type], i.e. wrapped into the
    range of the type. *)
Theorem integral_roundtrip_converts (T : raw_type) (order : endian) (v : Z) :
  exists packed,
    format_pack [integral T order] [int_value v] = Returns packed
    /\ size packed = Z.of_nat (sizeof T)
    /\ format_unpack [integral T order] packed = Returns [int_value (convert T v)].
Proof.
  exists (reorder order (object_bytes T (convert T v))).
  assert (Hsize : size (reorder order (object_bytes T (convert T v)))
                  = Z.of_nat (sizeof T)).
  { unfold size, object_bytes. now rewrite length_reorder, length_le_split. }
  split; [| split].
  - cbn [format_pack accepts follow_up_pack].
    rewrite integral_chain_pack_returns. now rewrite app_nil_r.
  - exact Hsize.
  - unfold format_unpack. cbn [follow_up_unpack element_unpack bind].
    unfold integral_unpack. cbv zeta. rewrite Hsize, Z.add_0_l, Z.leb_refl.
    cbn [bind decode_all decode].
    pose proof (integral_decode_object_bytes [] [] T order (convert T v)) as H.
    cbn [app] in H. rewrite app_nil_r in H. change (size []) with 0 in H.
    rewrite Z.add_0_l in H. rewrite H. cbn [bind].
    now rewrite convert_idempotent.
Qed.

Lemma le_combine_cons (b : byte) (rest : list byte) :
  le_combine (b :: rest) = byte.unsigned b + 256 * le_combine rest.
Proof.
  change (le_combine (b :: rest))
    with (Z.lor (byte.unsigned b) (Z.shiftl (le_combine rest) 8)).
  assert (Hland : Z.land (byte.unsigned b) (Z.shiftl (le_combine rest) 8) = 0).
  { apply Z.bits_inj'. intros i Hi. rewrite Z.land_spec, Z.bits_0.
    destruct (Z.ltb_spec i 8).
    - rewrite Z.shiftl_spec_low by lia. apply andb_false_r.
    - rewrite <- (Z.mod_small (byte.unsigned b) (2 ^ 8))
        by apply byte.unsigned_range.
      rewrite Z.mod_pow2_bits_high by lia. reflexivity. }
  rewrite <- Z.lxor_lor by exact Hland.
  rewrite <- Z.add_nocarry_lxor by exact Hland.
  rewrite Z.shiftl_mul_pow2 by lia. change (2 ^ 8) with 256. ring.
Qed.

Lemma le_value_le_combine (bs : list byte) : le_value bs = le_combine bs.
Proof.
  induction bs as [| b rest IH]; [reflexivity |].
  cbn [le_value]. now rewrite le_combine_cons, IH.
Qed.

Lemma be_value_rev (bs : list byte) : be_value (rev bs) = le_value bs.
Proof.
  unfold be_value.
  transitivity (fold_right (fun b acc => acc * 256 + byte.unsigned b) 0 (rev (rev bs))).
  - symmetry. apply (fold_left_rev_right (fun b acc => acc * 256 + byte.unsigned b)).
  - rewrite rev_involutive.
    induction bs as [| b rest IH]; [reflexivity |].
    cbn [fold_right le_value]. rewrite IH. ring.
Qed.

(** X7: the bytes [integral::chain::pack] writes denote the value modulo
    [2^bits]: with the least significant byte first under
    [endian::little], with the most significant byte first under
    [endian::big]. *)
Theorem integral_pack_byte_significance (T : raw_type) (v : Z) (rest : list byte) :
  exists lsb_first msb_first,
    integral_chain_pack T little v (Returns rest) = Returns (lsb_first ++ rest)
    /\ integral_chain_pack T big v (Returns rest) = Returns (msb_first ++ rest)
    /\ length lsb_first = sizeof T
    /\ length msb_first = sizeof T
    /\ le_value lsb_first = v mod 2 ^ bits T
    /\ be_value msb_first = v mod 2 ^ bits T.
Proof.
  exists (object_bytes T (convert T v)), (rev (object_bytes T (convert T v))).
  assert (Hval : le_value (object_bytes T (convert T v)) = v mod 2 ^ bits T).
  { rewrite le_value_le_combine. unfold object_bytes. rewrite le_combine_split.
    replace (Z.of_nat (sizeof T) * 8) with (bits T) by (unfold bits; lia).
    apply convert_mod. }
  repeat split.
  - apply (integral_chain_pack_returns T little).
  - apply (integral_chain_pack_returns T big).
  - unfold object_bytes. apply length_le_split.
  - rewrite length_rev. unfold object_bytes. apply length_le_split.
  - exact Hval.
  - now rewrite be_value_rev.
Qed.

(** ** More on the fixed-length string codec *)

(** X8: a format of one [fixed_string<length>] unpacks a buffer to its
    first [length] bytes when the buffer has that many, and throws
    otherwise. *)
Theorem fixed_string_unpack_takes_prefix (length : Z) (packed : list byte) :
  0 <= length ->
  format_unpack [fixed_string length] packed
  = if length <=? size packed
    then Returns [string_value (firstn (Z.to_nat length) packed)]
    else Throws fixed_string_underrun.
Proof.
  intros HL. unfold format_unpack.
  cbn [follow_up_unpack element_unpack]. unfold fixed_string_unpack.
  rewrite Z.add_0_l.
  destruct (Z.leb_spec length (size packed)) as [Hfit | Hshort]; [| reflexivity].
  cbn [bind decode_all decode]. unfold stringer_decode. cbn [begin end_].
  rewrite range_inside by lia.
  rewrite Z.sub_0_r. reflexivity.
Qed.

Lemma fixed_string_unpack_takes_prefix_witness :
  format_unpack [fixed_string 2] (list_byte_of_string "abc")
  = Returns [string_value (list_byte_of_string "ab")]
  /\ format_unpack [fixed_string 4] (list_byte_of_string "abc")
     = Throws fixed_string_underrun.
Proof.
  split.
  - apply (fixed_string_unpack_takes_prefix 2 (list_byte_of_string "abc")).
    vm_compute. discriminate.
  - apply (fixed_string_unpack_takes_prefix 4 (list_byte_of_string "abc")).
    vm_compute. discriminate.
Defined.

(** ** Unpacking formats without [varchar]: no undefined behaviour *)

(** One element of fixed width, unpacked at a cursor inside the buffer:
    either a decoder that decodes, with the cursor still inside the
    buffer, or the exception of [fixed_string]. *)
Lemma element_unpack_safe packed e (c : Z) :
  fixed_width e ->
  0 <= c <= size packed ->
  (exists d c',
      element_unpack packed e c (size packed) = Returns (d, c')
      /\ c <= c' <= c + width e
      /\ c' <= size packed
      /\ exists v, decode packed d = Returns v)
  \/ (exists L,
         e = fixed_string L
         /\ element_unpack packed e c (size packed) = Throws fixed_string_underrun
         /\ size packed < c + L).
Proof.
  intros He Hc. destruct e as [T order | L | T order]; cbn [fixed_width] in He.
  - left. cbn [element_unpack width]. unfold integral_unpack.
    destruct (Z.leb_spec (c + Z.of_nat (sizeof T)) (size packed)) as [Hfit | Hshort].
    + eexists _, _. split; [reflexivity |].
      split; [lia |]. split; [lia |].
      cbn [decode]. unfold integral_decode. cbn [origin begin end_ contents].
      rewrite range_inside by lia.
      replace (length (firstn (Z.to_nat (c + Z.of_nat (sizeof T) - c))
                         (skipn (Z.to_nat c) packed)) <=? sizeof T)%nat
        with true
        by (symmetry; apply Nat.leb_le; rewrite length_slice by lia; lia).
      eexists. reflexivity.
    + eexists _, _. split; [reflexivity |].
      split; [lia |]. split; [lia |].
      unfold null_decoder. cbn [decode]. rewrite null_decode by lia.
      eexists. reflexivity.
  - cbn [element_unpack width]. unfold fixed_string_unpack.
    destruct (Z.leb_spec (c + L) (size packed)) as [Hfit | Hshort].
    + left. eexists _, _. split; [reflexivity |].
      split; [lia |]. split; [lia |].
      cbn [decode]. unfold stringer_decode. cbn [begin end_].
      rewrite range_inside by lia. eexists. reflexivity.
    + right. exists L. repeat split. exact Hshort.
  - contradiction.
Qed.

Lemma follow_up_unpack_safe packed tail :
  forall head (c w : Z),
    Forall fixed_width (head :: tail) ->
    0 <= c <= size packed ->
    c <= w ->
    (exists plan V,
        follow_up_unpack packed head tail c (size packed) = Returns plan
        /\ decode_all packed plan = Returns V)
    \/ (follow_up_unpack packed head tail c (size packed) = Throws fixed_string_underrun
        /\ (exists L, In (fixed_string L) (head :: tail))
        /\ size packed < w + total_width (head :: tail)).
Proof.
  induction tail as [| head' tail' IH]; intros head c w HF Hc Hw;
    inversion HF as [| ? ? Hhead Htail]; subst.
  - destruct (element_unpack_safe packed head c Hhead Hc)
      as [(d & c' & Hu & _ & _ & v & Hv) | (L & -> & Hu & Hshort)].
    + left. exists [d], [v]. cbn [follow_up_unpack decode_all].
      rewrite Hu. cbn [bind]. rewrite Hv. split; reflexivity.
    + right. cbn [follow_up_unpack]. rewrite Hu. cbn [bind total_width width].
      split; [reflexivity |]. split; [exists L; now left | lia].
  - pose proof (total_width_nonneg _ Htail) as Hnn.
    change (total_width (head :: head' :: tail'))
      with (width head + total_width (head' :: tail')).
    destruct (element_unpack_safe packed head c Hhead Hc)
      as [(d & c' & Hu & Hc' & Hin & v & Hv) | (L & -> & Hu & Hshort)].
    + destruct (IH head' c' (w + width head) Htail) as
        [(plan & V & Hplan & HV) | (Hthrow & (L & HL) & Hshort)]; [lia | lia | |].
      * left. exists (d :: plan), (v :: V). cbn [follow_up_unpack decode_all].
        rewrite Hu. cbn [bind]. rewrite Hplan. cbn [bind].
        rewrite Hv. cbn [bind]. rewrite HV. split; reflexivity.
      * right. cbn [follow_up_unpack]. rewrite Hu. cbn [bind]. rewrite Hthrow.
        split; [reflexivity |]. split; [exists L; now right | lia].
    + right. cbn [follow_up_unpack]. rewrite Hu. cbn [bind width].
      split; [reflexivity |]. split; [exists L; now left | lia].
Qed.

(** X9: unpacking with a format of [integral] and [fixed_string] fields has
    no undefined behaviour, whatever the buffer: it returns a tuple, or it
    throws the exception of [fixed_string::unpack], and this only when the
    format has a [fixed_string] and the buffer is shorter than the fields
    together.  A format of [integral] fields alone always returns. *)
Theorem unpack_without_varchar_is_defined (F : list element) (packed : list byte) :
  F <> [] ->
  Forall fixed_width F ->
  ((exists V, format_unpack F packed = Returns V)
   \/ (format_unpack F packed = Throws fixed_string_underrun
       /\ (exists L, In (fixed_string L) F)
       /\ size packed < total_width F))
  /\ (Forall is_integral F -> exists V, format_unpack F packed = Returns V).
Proof.
  intros Hne HF. destruct F as [| head tail]; [contradiction |].
  pose proof (size_nonneg packed) as Hs.
  assert (Hmain :
            (exists V, format_unpack (head :: tail) packed = Returns V)
            \/ (format_unpack (head :: tail) packed = Throws fixed_string_underrun
                /\ (exists L, In (fixed_string L) (head :: tail))
                /\ size packed < total_width (head :: tail))).
  { unfold format_unpack.
    destruct (follow_up_unpack_safe packed tail head 0 0 HF)
      as [(plan & V & Hplan & HV) | (Hthrow & HL & Hshort)]; [lia | lia | |].
    - left. exists V. rewrite Hplan. exact HV.
    - right. rewrite Hthrow. split; [reflexivity |]. split; [exact HL | lia]. }
  split; [exact Hmain |].
  intros Hint. destruct Hmain as [HV | (_ & (L & HL) & _)]; [exact HV |].
  rewrite Forall_forall in Hint. destruct (Hint _ HL).
Qed.

Lemma unpack_without_varchar_is_defined_witness :
  let F := [integral uint16_t big; integral unsigned little] in
  let packed := list_byte_of_string "abc" in
  exists V, format_unpack F packed = Returns V.
Proof.
  refine (proj2 (unpack_without_varchar_is_defined
                   [integral uint16_t big; integral unsigned little]
                   (list_byte_of_string "abc") _ _) _).
  - discriminate.
  - repeat constructor.
  - repeat constructor.
Defined.

(** ** How [pack] fails, what it ignores, how it composes *)






Lemma follow_up_pack_extra F :
  forall V extra,
    accepts F V = true ->
    accepts F (V ++ extra) = true
    /\ follow_up_pack F (V ++ extra) = follow_up_pack F V.
Proof.
  induction F as [| head tail IH]; intros V extra Hacc; [split; reflexivity |].
  destruct head as [T order | L | T order], V as [| [z | s] V'];
    cbn [accepts] in Hacc; try discriminate;
    destruct (IH V' extra Hacc) as [Ha Hp];
    cbn [app accepts follow_up_pack]; now rewrite Hp.
Qed.

(** X11: arguments beyond those the format has fields for are accepted
    and ignored: [follow_up<finalizer>::pack] takes whatever is left and
    returns the empty string. *)
Theorem pack_ignores_extra_arguments (F : list element) (V extra : list value) :
  accepts F V = true ->
  format_pack F (V ++ extra) = format_pack F V.
Proof.
  intros Hacc. unfold format_pack. destruct F as [| head tail]; [reflexivity |].
  destruct (follow_up_pack_extra (head :: tail) V extra Hacc) as [Ha Hp].
  now rewrite Ha, Hacc, Hp.
Qed.

Lemma pack_ignores_extra_arguments_witness :
  format_pack [integral uint16_t big]
    ([int_value 258] ++ [string_value (list_byte_of_string "abc"); int_value 9])
  = format_pack [integral uint16_t big] [int_value 258].
Proof.
  apply (pack_ignores_extra_arguments [integral uint16_t big] [int_value 258]).
  reflexivity.
Defined.



(** ** The shape of what [unpack] returns *)

Lemma element_unpack_decoder_of packed e (c end' c' : Z) d :
  element_unpack packed e c end' = Returns (d, c') -> decoder_of e d.
Proof.
  destruct e as [T order | L | T order]; cbn [element_unpack]; intros H.
  - unfold integral_unpack, null_decoder in H.
    destruct (c + Z.of_nat (sizeof T) <=? end'); inversion H; now split.
  - unfold fixed_string_unpack in H.
    destruct (c + L <=? end'); inversion H. exact I.
  - unfold varchar_unpack in H.
    destruct (integral_unpack T order c end') as [ld c1].
    destruct ld as [T' order' p | p]; [| discriminate].
    destruct (integral_decode packed T' order' p); cbn [bind] in H; try discriminate.
    destruct (convert unsigned (end' - c1) <=? convert size_t a);
      inversion H. exact I.
Qed.

Lemma follow_up_unpack_decoders packed tail :
  forall head (c end' : Z) plan,
    follow_up_unpack packed head tail c end' = Returns plan ->
    Forall2 decoder_of (head :: tail) plan.
Proof.
  induction tail as [| head' tail' IH]; intros head c end' plan H;
    cbn [follow_up_unpack] in H;
    destruct (element_unpack packed head c end') as [[d c'] | | |] eqn:Hu;
    cbn [bind] in H; try discriminate;
    apply element_unpack_decoder_of in Hu.
  - inversion H. repeat constructor. exact Hu.
  - destruct (follow_up_unpack packed head' tail' c' end') as [rest | | |] eqn:Hrest;
      cbn [bind] in H; try discriminate.
    inversion H. constructor; [exact Hu | now apply IH in Hrest].
Qed.

Lemma decode_all_kinds packed F :
  forall plan V,
    Forall2 decoder_of F plan ->
    decode_all packed plan = Returns V ->
    Forall2 same_kind F V.
Proof.
  induction F as [| e F IH]; intros plan V HF H; inversion HF; subst.
  - inversion H. constructor.
  - cbn [decode_all] in H.
    destruct (decode packed y) as [v | | |] eqn:Hv; cbn [bind] in H; try discriminate.
    destruct (decode_all packed l') as [vs | | |] eqn:Hvs; cbn [bind] in H;
      try discriminate.
    inversion H. constructor; [| now apply (IH l')].
    destruct e, y; cbn [decoder_of] in *; try contradiction; cbn [decode] in Hv.
    + destruct (integral_decode packed T0 order0 p); inversion Hv. exact I.
    + destruct (stringer_decode packed p); inversion Hv. exact I.
    + destruct (stringer_decode packed p); inversion Hv. exact I.
Qed.

(** X13: whenever [format::unpack] returns, the tuple has one component
    per field of the format, in order and of the field's kind: an integer
    for an [integral], a string for a [fixed_string] or a [varchar]. *)
Theorem unpack_returns_one_value_per_field
    (F : list element) (packed : list byte) (V : list value) :
  format_unpack F packed = Returns V ->
  Forall2 same_kind F V /\ length V = length F.
Proof.
  intros H.
  assert (HK : Forall2 same_kind F V).
  { unfold format_unpack in H. destruct F as [| head tail]; [discriminate |].
    destruct (follow_up_unpack packed head tail 0 (size packed)) as [plan | | |] eqn:Hp;
      cbn [bind] in H; try discriminate.
    apply follow_up_unpack_decoders in Hp.
    exact (decode_all_kinds packed _ _ _ Hp H). }
  split; [exact HK |]. symmetry. exact (Forall2_length HK).
Qed.

Lemma unpack_returns_one_value_per_field_witness :
  Forall2 same_kind [fixed_string 1; integral uint16_t little]
    [string_value [Byte.x61]; int_value 0]
  /\ length [string_value [Byte.x61]; int_value 0]
     = length [fixed_string 1; integral uint16_t little].
Proof.
  apply (unpack_returns_one_value_per_field
           [fixed_string 1; integral uint16_t little] [Byte.x61; Byte.x62]).
  reflexivity.
Defined.

(** ** Packing what was unpacked *)

Lemma firstn_add_skipn {A : Type} (a b : nat) (l : list A) :
  firstn (a + b) l = firstn a l ++ firstn b (skipn a l).
Proof.
  revert l. induction a as [| a IH]; intros l; [reflexivity |].
  destruct l as [| x l]; cbn [Nat.add firstn skipn app].
  - now rewrite firstn_nil.
  - now rewrite IH.
Qed.

Lemma slice_split (packed : list byte) (c w tw : Z) :
  0 <= c -> 0 <= w -> 0 <= tw ->
  firstn (Z.to_nat (w + tw)) (skipn (Z.to_nat c) packed)
  = firstn (Z.to_nat (c + w - c)) (skipn (Z.to_nat c) packed)
    ++ firstn (Z.to_nat tw) (skipn (Z.to_nat (c + w)) packed).
Proof.
  intros Hc Hw Htw.
  rewrite Z2Nat.inj_add by lia. rewrite firstn_add_skipn, skipn_skipn.
  replace (c + w - c) with w by lia.
  replace (Z.to_nat w + Z.to_nat c)%nat with (Z.to_nat (c + w)) by lia.
  reflexivity.
Qed.

Lemma le_split_convert T z :
  le_split (sizeof T) (convert T z) = le_split (sizeof T) z.
Proof.
  rewrite (le_split_mod (convert T z)), (le_split_mod z).
  replace (Z.of_nat (sizeof T) * 8) with (bits T) by (unfold bits; lia).
  now rewrite convert_mod.
Qed.

(** The values decoded along the layout pack to the bytes they were
    decoded from. *)
Lemma decode_all_layout_repack packed F :
  forall (c : Z) V,
    Forall fixed_width F ->
    0 <= c ->
    c + total_width F <= size packed ->
    decode_all packed (layout F c) = Returns V ->
    accepts F V = true
    /\ follow_up_pack F V
       = Returns (firstn (Z.to_nat (total_width F)) (skipn (Z.to_nat c) packed)).
Proof.
  induction F as [| e F IH]; intros c V HF Hc Hfit H.
  - inversion H. split; reflexivity.
  - inversion HF as [| ? ? He HF']; subst.
    pose proof (width_nonneg e He) as Hw.
    pose proof (total_width_nonneg F HF') as Hnn.
    cbn [total_width] in Hfit |- *.
    cbn [layout decode_all] in H.
    destruct (decode packed (decoder_at e c)) as [v | | |] eqn:Hv;
      cbn [bind] in H; try discriminate.
    destruct (decode_all packed (layout F (c + width e))) as [vs | | |] eqn:Hvs;
      cbn [bind] in H; try discriminate.
    inversion H; subst V; clear H.
    destruct (IH (c + width e) vs HF') as [Hacc Hpack]; [lia | lia | exact Hvs |].
    rewrite slice_split by lia.
    destruct e as [T order | L | T order]; cbn [fixed_width width decoder_at] in *.
    + cbn [decode] in Hv. unfold integral_decode in Hv.
      cbn [origin begin end_ contents] in Hv.
      rewrite range_inside in Hv by lia.
      set (source := firstn (Z.to_nat (c + Z.of_nat (sizeof T) - c))
                       (skipn (Z.to_nat c) packed)) in *.
      assert (Hlen : length source = sizeof T)
        by (unfold source; rewrite length_slice by lia; lia).
      rewrite Hlen, Nat.leb_refl in Hv.
      rewrite byte_copy_full in Hv
        by (rewrite Hlen; unfold object_bytes; now rewrite length_le_split).
      cbn [bind] in Hv. inversion Hv; subst v; clear Hv.
      cbn [accepts follow_up_pack]. split; [exact Hacc |].
      rewrite Hpack, integral_chain_pack_returns. unfold object_value, object_bytes.
      rewrite convert_idempotent, le_split_convert.
      rewrite split_le_combine' by (now rewrite length_reorder).
      now rewrite reorder_involutive.
    + cbn [decode] in Hv. unfold stringer_decode in Hv. cbn [begin end_] in Hv.
      rewrite range_inside in Hv by lia.
      set (source := firstn (Z.to_nat (c + L - c)) (skipn (Z.to_nat c) packed)) in *.
      assert (Hlen : size source = L)
        by (unfold size, source; rewrite length_slice by lia; lia).
      cbn [bind] in Hv. inversion Hv; subst v; clear Hv.
      cbn [accepts follow_up_pack]. split; [exact Hacc |].
      rewrite Hpack. unfold fixed_string_chain_pack.
      rewrite convert_in_range
        by (unfold in_range; cbn [is_signed size_t];
            change (2 ^ bits size_t) with 18446744073709551616;
            change (2 ^ 31) with 2147483648 in He; lia).
      rewrite Hlen, Z.eqb_refl. reflexivity.
    + contradiction.
Qed.

(** X14: for a format of [integral] and [fixed_string] fields and a buffer
    holding at least the bytes of all fields, packing the tuple that
    [unpack] returned gives back the bytes [unpack] consumed: the first
    [total_width] bytes of the buffer. *)
Theorem pack_of_unpacked_is_consumed_prefix
    (F : list element) (packed : list byte) (V : list value) :
  F <> [] ->
  Forall fixed_width F ->
  total_width F <= size packed ->
  format_unpack F packed = Returns V ->
  format_pack F V = Returns (firstn (Z.to_nat (total_width F)) packed).
Proof.
  intros Hne HF Hfit H. destruct F as [| head tail]; [contradiction |].
  unfold format_unpack in H.
  rewrite follow_up_unpack_layout in H by (assumption || lia). cbn [bind] in H.
  destruct (decode_all_layout_repack packed (head :: tail) 0 V HF) as [Hacc Hpack];
    [lia | lia | exact H |].
  unfold format_pack. rewrite Hacc, Hpack. reflexivity.
Qed.

Lemma pack_of_unpacked_is_consumed_prefix_witness :
  format_pack [integral int32_t big; fixed_string 2]
    [int_value (-2); string_value (list_byte_of_string "ab")]
  = Returns [Byte.xff; Byte.xff; Byte.xff; Byte.xfe; Byte.x61; Byte.x62].
Proof.
  apply (pack_of_unpacked_is_consumed_prefix
           [integral int32_t big; fixed_string 2]
           ([Byte.xff; Byte.xff; Byte.xff; Byte.xfe]
              ++ list_byte_of_string "abcd")).
  - discriminate.
  - repeat constructor; vm_compute; discriminate.
  - vm_compute. discriminate.
  - reflexivity.
Defined.

(** ** The outcome of unpacking a single field, for every buffer *)

Lemma le_combine_reorder order (bs : list byte) :
  le_combine (reorder order bs) = value_in_order order bs.
Proof.
  destruct order; cbn [reorder value_in_order].
  - symmetry. apply le_value_le_combine.
  - rewrite <- le_value_le_combine, <- be_value_rev. now rewrite rev_involutive.
Qed.

(** X15: a format of one [integral] field unpacks every buffer.  When the
    buffer has [sizeof(raw_type)] bytes or more, the value is the number
    its first [sizeof(raw_type)] bytes denote in the field's byte order,
    converted to [raw_type]; when it is shorter, the value is 0 whatever
    bytes there are. *)
Theorem integral_unpack_reads_prefix
    (T : raw_type) (order : endian) (packed : list byte) :
  format_unpack [integral T order] packed
  = if Z.of_nat (sizeof T) <=? size packed
    then Returns [int_value (convert T (value_in_order order (firstn (sizeof T) packed)))]
    else Returns [int_value 0].
Proof.
  pose proof (size_nonneg packed) as Hs.
  unfold format_unpack. cbn [follow_up_unpack element_unpack bind].
  unfold integral_unpack. cbv zeta. rewrite Z.add_0_l.
  destruct (Z.leb_spec (Z.of_nat (sizeof T)) (size packed)) as [Hfit | Hshort];
    cbn [bind decode_all decode].
  - unfold integral_decode. cbn [origin begin end_ contents].
    rewrite range_inside by lia.
    rewrite Z.sub_0_r, Nat2Z.id. cbn [Z.to_nat skipn].
    assert (Hlen : length (firstn (sizeof T) packed) = sizeof T)
      by (rewrite length_firstn; unfold size in Hfit; lia).
    rewrite Hlen, Nat.leb_refl.
    rewrite byte_copy_full
      by (rewrite Hlen; unfold object_bytes; now rewrite length_le_split).
    unfold object_value. rewrite le_combine_reorder. reflexivity.
  - unfold null_decoder. cbn [bind decode_all decode].
    rewrite null_decode by lia. reflexivity.
Qed.

(** X16: a format of one [varchar] field, given the prefix that encodes
    [n] followed by [rest].  It throws when more than [n] bytes follow the
    prefix.  Otherwise it returns the empty string when [n] is 0, and for
    every other [n] builds a view that ends beyond the buffer, so that
    decoding it is undefined. *)
Theorem varchar_format_unpack_outcome
    (T : raw_type) (order : endian) (n : Z) (rest : list byte) :
  in_range T n ->
  0 <= n < 2 ^ 63 ->
  size rest < 2 ^ 32 ->
  format_unpack [varchar T order] (reorder order (object_bytes T n) ++ rest)
  = if n <? size rest then Throws varchar_underrun
    else if n =? 0 then Returns [string_value []]
         else Undefined.
Proof.
  intros HT Hn Hrest.
  pose proof (size_nonneg rest) as Hr0.
  pose proof (varchar_unpack_characterised [] rest T order n HT Hn Hrest) as H.
  cbv zeta in H. cbn [app] in H. change (size []) with 0 in H.
  rewrite Z.add_0_l in H.
  assert (Hsize : size (reorder order (object_bytes T n) ++ rest)
                  = Z.of_nat (sizeof T) + size rest).
  { rewrite size_app. unfold size at 1, object_bytes.
    now rewrite length_reorder, length_le_split. }
  unfold format_unpack. cbn [follow_up_unpack element_unpack]. rewrite H.
  destruct (Z.leb_spec (size rest) n) as [Hle | Hgt].
  - replace (n <? size rest) with false by (symmetry; apply Z.ltb_ge; lia).
    cbn [bind decode_all decode]. unfold stringer_decode. cbn [begin end_].
    destruct (Z.eqb_spec n 0) as [-> | Hn0].
    + rewrite !Z.add_0_r. rewrite range_empty by (rewrite Hsize; lia).
      reflexivity.
    + unfold range.
      replace (Z.of_nat (sizeof T) + n + n
               <=? size (reorder order (object_bytes T n) ++ rest))
        with false by (symmetry; apply Z.leb_gt; rewrite Hsize; lia).
      rewrite andb_false_r. reflexivity.
  - replace (n <? size rest) with true by (symmetry; apply Z.ltb_lt; lia).
    reflexivity.
Qed.

Lemma varchar_format_unpack_outcome_witness :
  format_unpack [varchar uint16_t big]
    ([Byte.x00; Byte.x03] ++ list_byte_of_string "abc")
  = Undefined.
Proof.
  apply (varchar_format_unpack_outcome uint16_t big 3 (list_byte_of_string "abc")).
  - vm_compute. split; [discriminate | reflexivity].
  - vm_compute. split; [discriminate | reflexivity].
  - vm_compute. reflexivity.
Defined.
